(** * rewrite-inplace: the block rewriter of [rewrite.py]

    [rewrite_file path] reads the first two bytes of every block of
    [BLOCKSIZE] bytes of a file and writes the same two bytes back in
    place.  The development below embeds the function together with the
    part of the Python runtime it calls ([os.path.getsize], [open] in
    mode ["rb+"], [seek], [read], [write], [range], tuple unpacking and
    [bytes]) and proves the properties the specification states.

    The file system is a finite map from paths to files, open file
    objects live in a table indexed by descriptor, and every call made on
    a file object is recorded in a log, so that statements about which
    offsets are read and written can be made about the run itself. *)

From Stdlib Require Import ZArith Lia.
From Stdlib Require Import Strings.Byte Sorting.Sorted.
From stdpp Require Import gmap strings list fin_maps.

Local Open Scope Z_scope.

(** ** Data model *)

(** [BLOCKSIZE = 128 * 1000] *)
Definition BLOCKSIZE : Z := 128 * 1000.

(** The exceptions that the calls of [rewrite_file] can raise. *)
Inductive exn : Type :=
  | FileNotFoundError   (* the path does not exist *)
  | PermissionError     (* the file cannot be opened for reading and writing *)
  | ValueError          (* unpacking, [bytes] of an int outside range(256),
                           [range] with step 0, a call on a closed file *)
  | IndexError          (* [sys.argv[1]] with no argument given *)
  | OSError.            (* any other failure of the underlying call *)

(** A regular file: its bytes and whether the process may read and write it. *)
Record inode : Type := Inode {
  i_data : list byte;
  i_readable : bool;
  i_writable : bool
}.

(** An open binary file object: the path it was opened on and its position. *)
Record file_object : Type := FileObject {
  fo_path : string;
  fo_pos : Z
}.

(** The calls made on file objects, in the order they were made.  A read
    records the position it started at, the number of bytes asked for and
    the bytes returned; a write records the position it landed at and the
    bytes written. *)
Inductive event : Type :=
  | EvOpen (path : string)
  | EvSeek (pos : Z)
  | EvRead (pos : Z) (n : Z) (data : list byte)
  | EvWrite (pos : Z) (data : list byte)
  | EvClose.

Record world : Type := World {
  files : gmap string inode;
  objs : gmap nat file_object;
  log : list event
}.

(** ** The monad of the embedding: state passing with exceptions *)

Definition IO (A : Type) : Type := world → (exn + A) * world.

#[global] Instance IO_ret : MRet IO := λ A (a : A) σ, (inr a, σ).

#[global] Instance IO_bind : MBind IO := λ A B (f : A → IO B) (m : IO A) σ,
  match m σ with
  | (inl e, σ') => (inl e, σ')
  | (inr a, σ') => f a σ'
  end.

Definition raise {A : Type} (e : exn) : IO A := λ σ, (inl e, σ).

Definition lift {A : Type} (r : exn + A) : IO A := λ σ, (r, σ).

(** [for x in xs: body(x)]; an exception raised by the body leaves the loop. *)
Fixpoint for_ {A : Type} (xs : list A) (body : A → IO ()) : IO () :=
  match xs with
  | [] => mret ()
  | x :: xs' => body x ;; for_ xs' body
  end.

(** ** The runtime calls *)

(** [os.path.getsize(path)] *)
Definition getsize (path : string) : IO Z := λ σ,
  match files σ !! path with
  | None => (inl FileNotFoundError, σ)
  | Some f => (inr (Z.of_nat (length (i_data f))), σ)
  end.

(** [open(path, "rb+")]: the file must exist (the mode neither creates nor
    truncates) and allow reading and writing; the new object starts at
    position 0. *)
Definition open_rb_plus (path : string) : IO nat := λ σ,
  match files σ !! path with
  | None => (inl FileNotFoundError, σ)
  | Some f =>
      if i_readable f && i_writable f then
        let fd := fresh (dom (objs σ)) in
        (inr fd, World (files σ) (<[fd := FileObject path 0]> (objs σ))
                       (log σ ++ [EvOpen path]))
      else (inl PermissionError, σ)
  end.

(** [file.close()] *)
Definition close (fd : nat) : IO () := λ σ,
  match objs σ !! fd with
  | None => (inr (), σ)
  | Some _ => (inr (), World (files σ) (delete fd (objs σ)) (log σ ++ [EvClose]))
  end.

(** [with open(path, "rb+") as file: body]: the object is closed on the
    way out, whether the body returned or raised. *)
Definition closing {A : Type} (fd : nat) (body : IO A) : IO A := λ σ,
  let '(r, σ') := body σ in
  let '(_, σ'') := close fd σ' in
  (r, σ'').

Definition with_open {A : Type} (path : string) (body : nat → IO A) : IO A :=
  file ← open_rb_plus path;
  closing file (body file).

(** [file.seek(pos)] *)
Definition seek (fd : nat) (pos : Z) : IO Z := λ σ,
  match objs σ !! fd with
  | None => (inl ValueError, σ)
  | Some o =>
      if pos <? 0 then (inl OSError, σ)
      else (inr pos, World (files σ) (<[fd := FileObject (fo_path o) pos]> (objs σ))
                           (log σ ++ [EvSeek pos]))
  end.

(** The bytes a read of [n] bytes at position [pos] returns: at most [n],
    fewer when the file ends first, all the rest when [n] is negative. *)
Definition read_at (c : list byte) (pos n : Z) : list byte :=
  if n <? 0 then drop (Z.to_nat pos) c
  else take (Z.to_nat n) (drop (Z.to_nat pos) c).

(** [file.read(n)] *)
Definition read (fd : nat) (n : Z) : IO (list byte) := λ σ,
  match objs σ !! fd with
  | None => (inl ValueError, σ)
  | Some o =>
      match files σ !! fo_path o with
      | None => (inl OSError, σ)
      | Some f =>
          let data := read_at (i_data f) (fo_pos o) n in
          (inr data,
           World (files σ)
                 (<[fd := FileObject (fo_path o) (fo_pos o + Z.of_nat (length data))]> (objs σ))
                 (log σ ++ [EvRead (fo_pos o) n data]))
      end
  end.

(** The content after writing [data] at position [pos]: the bytes under
    the write are replaced, the file grows when the write runs past its
    end, and a write that starts past the end fills the gap with zeros. *)
Definition write_at (c : list byte) (pos : Z) (data : list byte) : list byte :=
  let p := Z.to_nat pos in
  take p c ++ replicate (p - length c)%nat "000"%byte ++ data
    ++ drop (p + length data)%nat c.

(** [file.write(data)] *)
Definition write (fd : nat) (data : list byte) : IO Z := λ σ,
  match objs σ !! fd with
  | None => (inl ValueError, σ)
  | Some o =>
      match files σ !! fo_path o with
      | None => (inl OSError, σ)
      | Some f =>
          let f' := Inode (write_at (i_data f) (fo_pos o) data)
                          (i_readable f) (i_writable f) in
          (inr (Z.of_nat (length data)),
           World (<[fo_path o := f']> (files σ))
                 (<[fd := FileObject (fo_path o) (fo_pos o + Z.of_nat (length data))]> (objs σ))
                 (log σ ++ [EvWrite (fo_pos o) data]))
      end
  end.

(** The number of elements of [range(start, stop, step)]. *)
Definition range_len (start stop step : Z) : Z :=
  if 0 <? step then
    if start <? stop then (stop - start - 1) / step + 1 else 0
  else
    if stop <? start then (start - stop - 1) / (- step) + 1 else 0.

(** [range(start, stop, step)]: [start + k * step] for [k] below the
    length; a step of 0 is a [ValueError]. *)
Definition range (start stop step : Z) : exn + list Z :=
  if step =? 0 then inl ValueError
  else inr ((λ k, start + k * step) <$> seqZ 0 (range_len start stop step)).

(** Iterating over a bytes object gives the ints 0..255. *)
Definition int_of_byte (b : byte) : Z := Z.of_N (Byte.to_N b).

(** [a, b = bs]: exactly two elements, or a [ValueError]. *)
Definition unpack2 (bs : list byte) : exn + (Z * Z) :=
  match bs with
  | [a; b] => inr (int_of_byte a, int_of_byte b)
  | _ => inl ValueError
  end.

(** [bytes(xs)] for a list of ints: each must be in range(256). *)
Fixpoint bytes_of_ints (xs : list Z) : exn + list byte :=
  match xs with
  | [] => inr []
  | x :: xs' =>
      if (x <? 0) || (255 <? x) then inl ValueError
      else match Byte.of_N (Z.to_N x), bytes_of_ints xs' with
           | Some b, inr bs => inr (b :: bs)
           | _, _ => inl ValueError
           end
  end.

(** ** The program *)

(** The body of the loop of [rewrite_file], for the open object [file]
    and the offset [i]. *)
Definition rewrite_block (file : nat) (i : Z) : IO () :=
  seek file i ;;
  '(a, b) ← (read file 2 ≫= λ bs, lift (unpack2 bs));
  seek file i ;;
  bs ← lift (bytes_of_ints [a; b]);
  write file bs ;;
  mret ().

Definition rewrite_file (path : string) : IO () :=
  size ← getsize path;
  with_open path (λ file,
    offsets ← lift (range 0 size BLOCKSIZE);
    for_ offsets (rewrite_block file)).

(** [main]: the path is the first argument after the program name. *)
Definition main (argv : list string) : IO () :=
  match argv !! 1%nat with
  | Some path => rewrite_file path
  | None => raise IndexError
  end.

(** ** Vocabulary of the statements *)

(** A readable and writable file of content [c]. *)
Definition rw (c : list byte) : inode := Inode c true true.

(** A world with the one file [f] at [path] and nothing open. *)
Definition disk (path : string) (f : inode) : world :=
  World {[ path := f ]} ∅ [].

(** A readable and writable file of [n] zero bytes. *)
Definition zeros (n : Z) : inode := rw (replicate (Z.to_nat n) "000"%byte).

(** The calls of a complete iteration at offset [i] on content [c]. *)
Definition block_log (c : list byte) (i : Z) : list event :=
  [EvSeek i; EvRead i 2 (read_at c i 2); EvSeek i; EvWrite i (read_at c i 2)].

(** The calls of an iteration whose read came back short. *)
Definition short_log (c : list byte) (i : Z) : list event :=
  [EvSeek i; EvRead i 2 (read_at c i 2)].

(** What the loop over [offs] logs on content [c], and how it ends: it
    stops at the first offset with fewer than two bytes left. *)
Fixpoint loop_log (c : list byte) (offs : list Z) : list event :=
  match offs with
  | [] => []
  | i :: rest =>
      if decide (i + 2 ≤ Z.of_nat (length c))
      then block_log c i ++ loop_log c rest
      else short_log c i
  end.

Fixpoint loop_result (c : list byte) (offs : list Z) : exn + () :=
  match offs with
  | [] => inr ()
  | i :: rest =>
      if decide (i + 2 ≤ Z.of_nat (length c))
      then loop_result c rest
      else inl ValueError
  end.

(** The offsets [range(0, size, BLOCKSIZE)] yields. *)
Definition block_offsets (size : Z) : list Z :=
  match range 0 size BLOCKSIZE with
  | inr offs => offs
  | inl _ => []
  end.

(** [ceil(a / b)] for a positive [b]. *)
Definition ceil_div (a b : Z) : Z :=
  if a mod b =? 0 then a / b else a / b + 1.

(** The calls made during [rewrite_file path] started in [σ]: what the
    run adds to the log. *)
Definition run_log (path : string) (σ : world) : list event :=
  drop (length (log σ)) (log (rewrite_file path σ).2).

(** The offsets at which reads were made, in order. *)
Definition read_offsets (evs : list event) : list Z :=
  omap (λ e, match e with EvRead pos _ _ => Some pos | _ => None end) evs.

(** Byte position [j] lies under one of the writes of [evs]. *)
Definition written (evs : list event) (j : Z) : Prop :=
  ∃ pos data, EvWrite pos data ∈ evs ∧ pos ≤ j < pos + Z.of_nat (length data).

(** The two bytes (or fewer, at the end of the file) at offset [i] of the
    file at [path]. *)
Definition window (σ : world) (path : string) (i : Z) : option (list byte) :=
  (λ f, read_at (i_data f) i 2) <$> files σ !! path.

(** The size of a file, as [getsize] reports it. *)
Definition size_of (f : inode) : Z := Z.of_nat (length (i_data f)).

(** The file can be opened in mode ["rb+"]. *)
Definition openable (f : inode) : Prop := i_readable f && i_writable f = true.

(** [offs] lists, in ascending order, the multiples of [BLOCKSIZE] below
    [size]. *)
Definition offsets_below (size : Z) (offs : list Z) : Prop :=
  StronglySorted Z.lt offs ∧
  ∀ i, i ∈ offs ↔ 0 ≤ i < size ∧ i mod BLOCKSIZE = 0.

(** Between opening and closing the file object, the run does at each
    offset of a file of content [c], in the order the offsets were read:
    seek, read two bytes, seek back, write these two bytes. *)
Definition rewrites_each_offset (σ : world) (path : string) (c : list byte) : Prop :=
  let offs := read_offsets (run_log path σ) in
  Forall (λ i, length (read_at c i 2) = 2%nat) offs ∧
  run_log path σ = [EvOpen path] ++ (offs ≫= block_log c) ++ [EvClose].

(** The offset sequence as the specification words it, for every file. *)
Definition stated_offset_sequence : Prop :=
  ∀ (σ : world) (path : string) (f : inode),
    files σ !! path = Some f → openable f →
    offsets_below (size_of f) (read_offsets (run_log path σ)) ∧
    rewrites_each_offset σ path (i_data f).

(** The run writes only in the two-byte windows at the block boundaries:
    every write starts at a multiple of [BLOCKSIZE] and is two bytes long,
    every byte position under a write lies inside the file, at most one
    byte after a block boundary, and the run leaves every file, its length
    included, as it was. *)
Definition writes_in_windows (σ : world) (path : string) : Prop :=
  (∀ pos data, EvWrite pos data ∈ run_log path σ →
     pos mod BLOCKSIZE = 0 ∧ length data = 2%nat) ∧
  (∀ j, written (run_log path σ) j →
     ∃ f, files σ !! path = Some f ∧ 0 ≤ j < size_of f ∧ j mod BLOCKSIZE < 2) ∧
  files (rewrite_file path σ).2 = files σ.

(** The frame condition as the specification words it, with its example:
    on a file of two blocks and 50 bytes only the offsets 0 and
    [BLOCKSIZE] are processed and none of the last 50 bytes is written. *)
Definition stated_frame_condition : Prop :=
  ∀ (σ : world) (path : string),
    writes_in_windows σ path ∧
    ∀ f, files σ !! path = Some f → openable f →
         size_of f = 2 * BLOCKSIZE + 50 →
         read_offsets (run_log path σ) = [0; BLOCKSIZE] ∧
         ∀ j, 2 * BLOCKSIZE ≤ j < 2 * BLOCKSIZE + 50 →
              ¬ written (run_log path σ) j.

(** The offsets at which writes were made, in order. *)
Definition write_offsets (evs : list event) : list Z :=
  omap (λ e, match e with EvWrite pos _ => Some pos | _ => None end) evs.

(** ** Small runs *)

Example run_empty :
  rewrite_file "f" (disk "f" (rw [])) =
  (inr (), World {[ "f" := rw [] ]} ∅ [EvOpen "f"; EvClose]).
Proof. vm_compute. reflexivity. Qed.

Example run_three :
  rewrite_file "f" (disk "f" (rw ["a"; "b"; "c"]%byte)) =
  (inr (), World {[ "f" := rw ["a"; "b"; "c"]%byte ]} ∅
     [EvOpen "f"; EvSeek 0; EvRead 0 2 ["a"; "b"]%byte;
      EvSeek 0; EvWrite 0 ["a"; "b"]%byte; EvClose]).
Proof. vm_compute. reflexivity. Qed.

Example run_one :
  rewrite_file "f" (disk "f" (rw ["a"]%byte)) =
  (inl ValueError, World {[ "f" := rw ["a"]%byte ]} ∅
     [EvOpen "f"; EvSeek 0; EvRead 0 2 ["a"]%byte; EvClose]).
Proof. vm_compute. reflexivity. Qed.

Example run_missing :
  rewrite_file "g" (disk "f" (rw ["a"; "b"]%byte)) =
  (inl FileNotFoundError, disk "f" (rw ["a"; "b"]%byte)).
Proof. vm_compute. reflexivity. Qed.

(** ** The block size *)

Lemma BLOCKSIZE_ge_2 : 2 ≤ BLOCKSIZE.
Proof. unfold BLOCKSIZE. lia. Qed.

Lemma BLOCKSIZE_pos : 0 < BLOCKSIZE.
Proof. pose proof BLOCKSIZE_ge_2. lia. Qed.

Lemma one_mod_BLOCKSIZE : 1 mod BLOCKSIZE = 1.
Proof. apply Z.mod_small. pose proof BLOCKSIZE_ge_2. lia. Qed.

(** ** Bytes, reads and writes *)

(** Settles a test [a <? b] that the context makes false. *)
Ltac ltb_false t :=
  replace t with false by (symmetry; apply Z.ltb_ge; lia).

Lemma int_of_byte_range (b : byte) : 0 ≤ int_of_byte b ≤ 255.
Proof.
  unfold int_of_byte. pose proof (Byte.to_N_bounded b). lia.
Qed.

Lemma bytes_of_ints_unpacked (a b : byte) :
  bytes_of_ints [int_of_byte a; int_of_byte b] = inr [a; b].
Proof.
  pose proof (int_of_byte_range a) as Ha.
  pose proof (int_of_byte_range b) as Hb.
  cbn [bytes_of_ints].
  ltb_false (int_of_byte a <? 0). ltb_false (255 <? int_of_byte a).
  ltb_false (int_of_byte b <? 0). ltb_false (255 <? int_of_byte b).
  cbn [orb]. unfold int_of_byte. rewrite !N2Z.id, !Byte.of_to_N. reflexivity.
Qed.

Lemma length_read_at_2 (c : list byte) (pos : Z) :
  length (read_at c pos 2) = Nat.min 2 (length c - Z.to_nat pos).
Proof.
  unfold read_at. cbn [Z.ltb Z.compare]. rewrite length_take, length_drop.
  reflexivity.
Qed.

(** A read of two bytes is complete exactly when two bytes are left. *)
Lemma read_at_2_full (c : list byte) (pos : Z) :
  0 ≤ pos →
  length (read_at c pos 2) = 2%nat ↔ pos + 2 ≤ Z.of_nat (length c).
Proof. intros Hpos. rewrite length_read_at_2. lia. Qed.

Lemma read_at_2_last (c : list byte) (pos : Z) :
  0 ≤ pos → pos + 1 = Z.of_nat (length c) →
  length (read_at c pos 2) = 1%nat.
Proof. intros Hpos Hlen. rewrite length_read_at_2. lia. Qed.

Lemma take_drop_length {A : Type} (l : list A) (n : nat) :
  take n l ++ drop (length (take n l)) l = l.
Proof.
  destruct (decide (n ≤ length l)%nat) as [Hle|Hgt].
  - rewrite length_take_le by done. apply take_drop.
  - rewrite take_ge by lia. rewrite drop_all. apply app_nil_r.
Qed.

(** Writing back what was read leaves the content as it was. *)
Lemma write_at_read_at (c : list byte) (pos n : Z) :
  0 ≤ pos → 0 ≤ n → pos ≤ Z.of_nat (length c) →
  write_at c pos (read_at c pos n) = c.
Proof.
  intros Hpos Hn Hle. unfold write_at, read_at.
  ltb_false (n <? 0).
  replace (Z.to_nat pos - length c)%nat with 0%nat by lia.
  cbn [replicate app].
  rewrite <- (drop_drop c (length _) (Z.to_nat pos)).
  rewrite take_drop_length.
  apply take_drop.
Qed.

(** ** One iteration, and the loop *)

Lemma inode_eta (f : inode) : Inode (i_data f) (i_readable f) (i_writable f) = f.
Proof. destruct f; reflexivity. Qed.

(** The iteration at offset [i] on the object [fd], open on the file [f]
    at [path]. *)
Section iteration.
Context (fd : nat) (path : string) (f : inode).

Lemma rewrite_block_full (σ : world) (p i : Z) :
  objs σ !! fd = Some (FileObject path p) →
  files σ !! path = Some f →
  0 ≤ i → i + 2 ≤ Z.of_nat (length (i_data f)) →
  rewrite_block fd i σ =
    (inr (), World (files σ) (<[fd := FileObject path (i + 2)]> (objs σ))
                   (log σ ++ block_log (i_data f) i)).
Proof.
  intros Hfd Hpath Hi Hlen.
  pose proof (proj2 (read_at_2_full (i_data f) i Hi) Hlen) as Hfull.
  destruct (read_at (i_data f) i 2) as [|a [|b [|? ?]]] eqn:Hread;
    try discriminate Hfull.
  destruct σ as [fs os lg]; cbn [files objs log] in *.
  unfold rewrite_block, mbind, IO_bind, mret, IO_ret, lift.
  unfold seek at 1. cbn [files objs log]. rewrite Hfd.
  ltb_false (i <? 0).
  unfold read. cbn [files objs log fo_path fo_pos].
  rewrite lookup_insert_eq. cbn [fo_path fo_pos]. rewrite Hpath, Hread.
  cbn [unpack2].
  unfold seek. cbn [files objs log]. rewrite lookup_insert_eq.
  ltb_false (i <? 0).
  rewrite bytes_of_ints_unpacked.
  unfold write. cbn [files objs log fo_path fo_pos].
  rewrite lookup_insert_eq. cbn [fo_path fo_pos]. rewrite Hpath.
  rewrite <- Hread, write_at_read_at by lia.
  rewrite inode_eta, (insert_id fs path f Hpath).
  rewrite !insert_insert_eq. rewrite Hread. cbn [length].
  unfold block_log. rewrite Hread. rewrite <- !app_assoc. reflexivity.
Qed.

Lemma rewrite_block_short (σ : world) (p i : Z) :
  objs σ !! fd = Some (FileObject path p) →
  files σ !! path = Some f →
  0 ≤ i → Z.of_nat (length (i_data f)) < i + 2 →
  rewrite_block fd i σ =
    (inl ValueError,
     World (files σ)
           (<[fd := FileObject path (i + Z.of_nat (length (read_at (i_data f) i 2)))]> (objs σ))
           (log σ ++ short_log (i_data f) i)).
Proof.
  intros Hfd Hpath Hi Hlen.
  assert (length (read_at (i_data f) i 2) ≠ 2%nat) as Hshort.
  { rewrite read_at_2_full by done. lia. }
  destruct σ as [fs os lg]; cbn [files objs log] in *.
  unfold rewrite_block, mbind, IO_bind, mret, IO_ret, lift.
  unfold seek at 1. cbn [files objs log]. rewrite Hfd.
  ltb_false (i <? 0).
  unfold read. cbn [files objs log fo_path fo_pos].
  rewrite lookup_insert_eq. cbn [fo_path fo_pos]. rewrite Hpath.
  unfold short_log.
  destruct (read_at (i_data f) i 2) as [|a [|b [|? ?]]] eqn:Hread;
    cbn [unpack2]; rewrite ?insert_insert_eq, <- ?app_assoc;
    try reflexivity.
  cbn in Hshort. congruence.
Qed.

(** The loop over [offs]: it logs [loop_log], ends as [loop_result] says,
    and leaves the file system as it was. *)
Lemma for_rewrite_block (offs : list Z) :
  Forall (λ i, 0 ≤ i) offs →
  ∀ (σ : world) (p : Z),
    objs σ !! fd = Some (FileObject path p) →
    files σ !! path = Some f →
    ∃ p', for_ offs (rewrite_block fd) σ =
      (loop_result (i_data f) offs,
       World (files σ) (<[fd := FileObject path p']> (objs σ))
             (log σ ++ loop_log (i_data f) offs)).
Proof.
  induction 1 as [|i rest Hi _ IH]; intros σ p Hfd Hpath.
  - exists p. destruct σ as [fs os lg]; cbn in *.
    rewrite insert_id, app_nil_r by done. reflexivity.
  - cbn [for_ loop_log loop_result]. unfold mbind, IO_bind.
    case_decide as Hlen.
    + rewrite (rewrite_block_full σ p i) by done.
      edestruct IH as [p' ->]; cbn [files objs log].
      { apply lookup_insert_eq. }
      { done. }
      exists p'. rewrite insert_insert_eq, <- app_assoc. reflexivity.
    + rewrite (rewrite_block_short σ p i) by (done || lia).
      eexists. reflexivity.
Qed.

End iteration.

(** ** The offsets *)

Lemma range_block_offsets (size : Z) :
  range 0 size BLOCKSIZE = inr (block_offsets size).
Proof.
  unfold block_offsets, range.
  pose proof BLOCKSIZE_pos.
  destruct (Z.eqb_spec BLOCKSIZE 0) as [?|_]; [lia | reflexivity].
Qed.

Lemma block_offsets_eq (size : Z) :
  block_offsets size = (λ k, k * BLOCKSIZE) <$> seqZ 0 (range_len 0 size BLOCKSIZE).
Proof.
  unfold block_offsets, range.
  pose proof BLOCKSIZE_pos.
  destruct (Z.eqb_spec BLOCKSIZE 0) as [?|_]; [lia | reflexivity].
Qed.

Lemma range_len_ceil (size : Z) :
  0 ≤ size → range_len 0 size BLOCKSIZE = ceil_div size BLOCKSIZE.
Proof.
  intros Hsize. pose proof BLOCKSIZE_pos as HB.
  unfold range_len, ceil_div.
  destruct (Z.ltb_spec 0 BLOCKSIZE) as [_|?]; [|lia].
  pose proof (Z.div_mod size BLOCKSIZE ltac:(lia)) as Hdm.
  pose proof (Z.mod_pos_bound size BLOCKSIZE HB) as Hm.
  destruct (Z.ltb_spec 0 size) as [Hpos|Hz].
  - rewrite Z.sub_0_r.
    destruct (Z.eqb_spec (size mod BLOCKSIZE) 0) as [H0|Hn0].
    + assert ((size - 1) / BLOCKSIZE = size / BLOCKSIZE - 1) as ->; [|lia].
      symmetry. apply (Z.div_unique _ _ _ (BLOCKSIZE - 1)); lia.
    + f_equal. symmetry.
      apply (Z.div_unique _ _ _ (size mod BLOCKSIZE - 1)); lia.
  - replace size with 0 by lia. rewrite Zmod_0_l, Zdiv_0_l. reflexivity.
Qed.

Lemma lt_ceil_div (size k : Z) :
  k < ceil_div size BLOCKSIZE ↔ k * BLOCKSIZE < size.
Proof.
  pose proof BLOCKSIZE_pos as HB. unfold ceil_div.
  pose proof (Z.div_mod size BLOCKSIZE ltac:(lia)) as Hdm.
  pose proof (Z.mod_pos_bound size BLOCKSIZE HB) as Hm.
  generalize dependent (size / BLOCKSIZE). intros q Hdm.
  generalize dependent (size mod BLOCKSIZE). intros r Hdm Hm.
  destruct (Z.eqb_spec r 0); split; intros; nia.
Qed.

(** [ceil_div size BLOCKSIZE] is the least number of blocks that cover
    [size] bytes. *)
Lemma ceil_div_le (size n : Z) :
  ceil_div size BLOCKSIZE ≤ n ↔ size ≤ n * BLOCKSIZE.
Proof. pose proof (lt_ceil_div size n). lia. Qed.

Lemma lookup_block_offsets (size : Z) (k : nat) (i : Z) :
  0 ≤ size →
  block_offsets size !! k = Some i ↔
  i = Z.of_nat k * BLOCKSIZE ∧ Z.of_nat k < ceil_div size BLOCKSIZE.
Proof.
  intros Hsize. rewrite block_offsets_eq, list_lookup_fmap, fmap_Some.
  setoid_rewrite lookup_seqZ. rewrite range_len_ceil by done.
  split.
  - intros (j & [-> Hlt] & ->). split; [f_equal|]; lia.
  - intros [-> Hlt]. exists (Z.of_nat k). split; [split|]; lia.
Qed.

Lemma length_block_offsets (size : Z) :
  0 ≤ size →
  Z.of_nat (length (block_offsets size)) = ceil_div size BLOCKSIZE.
Proof.
  intros Hsize. rewrite block_offsets_eq, length_fmap, length_seqZ.
  rewrite range_len_ceil by done.
  pose proof (proj2 (lt_ceil_div size (-1))) as Hlt.
  pose proof BLOCKSIZE_pos. lia.
Qed.

(** The offsets are the multiples of [BLOCKSIZE] below [size]. *)
Lemma elem_of_block_offsets (size i : Z) :
  i ∈ block_offsets size ↔ 0 ≤ i < size ∧ i mod BLOCKSIZE = 0.
Proof.
  pose proof BLOCKSIZE_pos as HB.
  rewrite block_offsets_eq, list_elem_of_fmap.
  setoid_rewrite elem_of_seqZ. split.
  - intros (k & -> & Hk).
    destruct (Z.le_gt_cases 0 size) as [Hsize|Hneg].
    + rewrite range_len_ceil in Hk by done.
      destruct Hk as [Hk0 Hk]. apply lt_ceil_div in Hk.
      split; [nia | apply Z_mod_mult].
    + unfold range_len in Hk.
      destruct (Z.ltb_spec 0 BLOCKSIZE); [|lia].
      destruct (Z.ltb_spec 0 size); lia.
  - intros [[Hi0 Hlt] Hmod].
    exists (i / BLOCKSIZE).
    pose proof (Z.div_mod i BLOCKSIZE ltac:(lia)) as Hdm.
    rewrite Hmod in Hdm.
    split; [lia|]. rewrite range_len_ceil by lia.
    split; [apply Z.div_pos; lia|].
    apply lt_ceil_div. lia.
Qed.

Lemma block_offsets_nonneg (size : Z) :
  Forall (λ i, 0 ≤ i) (block_offsets size).
Proof.
  apply Forall_forall. intros i Hi%elem_of_block_offsets. lia.
Qed.

Lemma fmap_seqZ_ascending (m : Z) (n : nat) :
  StronglySorted Z.lt ((λ k, k * BLOCKSIZE) <$> seqZ m (Z.of_nat n)).
Proof.
  pose proof BLOCKSIZE_pos as HB.
  revert m. induction n as [|n IH]; intros m.
  - constructor.
  - rewrite seqZ_cons by lia. rewrite fmap_cons.
    replace (Z.pred (Z.of_nat (S n))) with (Z.of_nat n) by lia.
    constructor; [apply IH|].
    apply Forall_fmap, Forall_seqZ. intros k Hk. cbn. nia.
Qed.

(** The offsets come in ascending order. *)
Lemma block_offsets_ascending (size : Z) :
  StronglySorted Z.lt (block_offsets size).
Proof.
  rewrite block_offsets_eq.
  destruct (Z.le_gt_cases 0 (range_len 0 size BLOCKSIZE)) as [Hn|Hn].
  - rewrite <- (Z2Nat.id _ Hn). apply fmap_seqZ_ascending.
  - rewrite seqZ_nil by lia. constructor.
Qed.

(** Unless the size is 1 modulo [BLOCKSIZE], two bytes are left at every
    offset. *)
Lemma block_offsets_full (size : Z) :
  size mod BLOCKSIZE ≠ 1 →
  Forall (λ i, i + 2 ≤ size) (block_offsets size).
Proof.
  intros Hmod. pose proof BLOCKSIZE_ge_2 as HB.
  apply Forall_forall. intros i [[Hi0 Hlt] Hi]%elem_of_block_offsets.
  destruct (decide (i + 1 = size)) as [<-|]; [|lia].
  exfalso. apply Hmod.
  rewrite <- Zplus_mod_idemp_l, Hi. apply Z.mod_small. lia.
Qed.

(** When the size is 1 modulo [BLOCKSIZE], the last offset is [size - 1],
    and two bytes are left at every offset before it. *)
Lemma block_offsets_short (size : Z) :
  0 ≤ size → size mod BLOCKSIZE = 1 →
  block_offsets size = block_offsets (size - 1) ++ [size - 1] ∧
  Forall (λ i, i + 2 ≤ size) (block_offsets (size - 1)).
Proof.
  intros Hsize Hmod. pose proof BLOCKSIZE_ge_2 as HB.
  assert ((size - 1) mod BLOCKSIZE = 0) as Hmod0.
  { rewrite Zminus_mod, Hmod, one_mod_BLOCKSIZE. apply Z.mod_0_l. lia. }
  assert (1 ≤ size) as Hsize1.
  { destruct (decide (size = 0)) as [->|]; [|lia].
    rewrite Z.mod_0_l in Hmod by lia. lia. }
  split.
  - rewrite !block_offsets_eq, !range_len_ceil by lia.
    pose proof (Z.div_mod size BLOCKSIZE ltac:(lia)) as Hdm.
    pose proof (Z.div_mod (size - 1) BLOCKSIZE ltac:(lia)) as Hdm'.
    assert ((size - 1) / BLOCKSIZE = size / BLOCKSIZE) as Hq.
    { symmetry. apply (Z.div_unique _ _ _ 0); lia. }
    assert (0 ≤ size / BLOCKSIZE) as Hq0 by (apply Z.div_pos; lia).
    unfold ceil_div. rewrite Hmod, Hmod0, Hq. cbn [Z.eqb].
    rewrite seqZ_app, fmap_app by lia. f_equal.
    rewrite seqZ_cons, seqZ_nil by lia. cbn. f_equal. lia.
  - apply Forall_forall. intros i [[Hi0 Hlt] Hi]%elem_of_block_offsets. lia.
Qed.

(** ** How the loop ends *)

Lemma loop_full (c : list byte) (offs : list Z) :
  Forall (λ i, i + 2 ≤ Z.of_nat (length c)) offs →
  loop_result c offs = inr () ∧ loop_log c offs = offs ≫= block_log c.
Proof.
  induction 1 as [|i rest Hi _ [IHr IHl]]; [split; reflexivity|].
  cbn [loop_result loop_log].
  destruct (decide (i + 2 ≤ Z.of_nat (length c))) as [_|?]; [|done].
  rewrite IHr, IHl. split; reflexivity.
Qed.

Lemma loop_short (c : list byte) (pre : list Z) (i : Z) :
  Forall (λ i, i + 2 ≤ Z.of_nat (length c)) pre →
  Z.of_nat (length c) < i + 2 →
  loop_result c (pre ++ [i]) = inl ValueError ∧
  loop_log c (pre ++ [i]) = (pre ≫= block_log c) ++ short_log c i.
Proof.
  intros Hpre Hi. induction Hpre as [|j rest Hj _ [IHr IHl]].
  - cbn [app loop_result loop_log].
    destruct (decide (i + 2 ≤ Z.of_nat (length c))) as [?|_]; [lia|].
    split; reflexivity.
  - cbn [app loop_result loop_log].
    destruct (decide (j + 2 ≤ Z.of_nat (length c))) as [_|?]; [|done].
    rewrite IHr, IHl, bind_cons, app_assoc. split; reflexivity.
Qed.

(** ** The whole run *)

Lemma rewrite_file_missing (σ : world) (path : string) :
  files σ !! path = None →
  rewrite_file path σ = (inl FileNotFoundError, σ).
Proof.
  intros Hpath. unfold rewrite_file, mbind, IO_bind, getsize.
  rewrite Hpath. reflexivity.
Qed.

Lemma rewrite_file_denied (σ : world) (path : string) (f : inode) :
  files σ !! path = Some f →
  i_readable f && i_writable f = false →
  rewrite_file path σ = (inl PermissionError, σ).
Proof.
  intros Hpath Hperm.
  unfold rewrite_file, with_open, mbind, IO_bind, getsize, open_rb_plus.
  rewrite Hpath. cbv beta iota. rewrite Hpath, Hperm. reflexivity.
Qed.

(** On a file that can be opened, the run is the loop over the offsets of
    its size, between the opening and the closing of the file object; the
    file system and the table of open objects end as they started. *)
Lemma rewrite_file_run (σ : world) (path : string) (f : inode) :
  files σ !! path = Some f →
  i_readable f && i_writable f = true →
  let offs := block_offsets (Z.of_nat (length (i_data f))) in
  rewrite_file path σ =
    (loop_result (i_data f) offs,
     World (files σ) (objs σ)
           (log σ ++ [EvOpen path] ++ loop_log (i_data f) offs ++ [EvClose])).
Proof.
  intros Hpath Hperm offs.
  unfold rewrite_file, with_open, closing, mbind, IO_bind, getsize, open_rb_plus.
  rewrite Hpath. cbv beta iota. rewrite Hpath, Hperm. cbv beta iota.
  rewrite range_block_offsets. unfold lift. cbv beta iota. fold offs.
  set (fd := fresh (dom (objs σ))).
  assert (objs σ !! fd = None) as Hfresh.
  { apply not_elem_of_dom, is_fresh. }
  set (σ1 := World _ _ _).
  destruct (for_rewrite_block fd path f offs (block_offsets_nonneg _) σ1 0)
    as [p' ->].
  { apply lookup_insert_eq. }
  { done. }
  subst σ1. unfold close. cbn [files objs log]. rewrite lookup_insert_eq.
  cbn [files objs log].
  rewrite insert_insert_eq, delete_insert_id by done.
  rewrite <- !app_assoc. reflexivity.
Qed.

(** ** Observing a run *)

Lemma run_log_missing (σ : world) (path : string) :
  files σ !! path = None → run_log path σ = [].
Proof.
  intros Hpath. unfold run_log. rewrite rewrite_file_missing by done.
  apply drop_all.
Qed.

Lemma run_log_denied (σ : world) (path : string) (f : inode) :
  files σ !! path = Some f → ¬ openable f → run_log path σ = [].
Proof.
  intros Hpath Hperm. unfold run_log.
  rewrite (rewrite_file_denied σ path f) by (done || by apply not_true_is_false).
  apply drop_all.
Qed.

Lemma run_log_run (σ : world) (path : string) (f : inode) :
  files σ !! path = Some f → openable f →
  run_log path σ =
    [EvOpen path] ++ loop_log (i_data f) (block_offsets (size_of f)) ++ [EvClose].
Proof.
  intros Hpath Hperm. unfold run_log.
  rewrite (rewrite_file_run σ path f) by done. cbn [snd log].
  apply drop_app_length.
Qed.

(** The run only adds to the log. *)
Lemma log_rewrite_file (σ : world) (path : string) :
  log (rewrite_file path σ).2 = log σ ++ run_log path σ.
Proof.
  destruct (files σ !! path) as [f|] eqn:Hpath.
  - destruct (i_readable f && i_writable f) eqn:Hperm.
    + rewrite (run_log_run σ path f) by done.
      rewrite (rewrite_file_run σ path f) by done. reflexivity.
    + rewrite (run_log_denied σ path f) by (done || unfold openable; congruence).
      rewrite (rewrite_file_denied σ path f) by done.
      symmetry. apply app_nil_r.
  - rewrite run_log_missing, rewrite_file_missing by done.
    symmetry. apply app_nil_r.
Qed.

(** The run never changes the file system or the table of open objects. *)
Lemma files_rewrite_file (σ : world) (path : string) :
  files (rewrite_file path σ).2 = files σ ∧
  objs (rewrite_file path σ).2 = objs σ.
Proof.
  destruct (files σ !! path) as [f|] eqn:Hpath.
  - destruct (i_readable f && i_writable f) eqn:Hperm.
    + rewrite (rewrite_file_run σ path f) by done. done.
    + rewrite (rewrite_file_denied σ path f) by done. done.
  - rewrite rewrite_file_missing by done. done.
Qed.

Lemma read_offsets_app (evs1 evs2 : list event) :
  read_offsets (evs1 ++ evs2) = read_offsets evs1 ++ read_offsets evs2.
Proof. apply omap_app. Qed.

Lemma read_offsets_blocks (c : list byte) (offs : list Z) :
  read_offsets (offs ≫= block_log c) = offs.
Proof.
  induction offs as [|i rest IH]; [reflexivity|].
  rewrite bind_cons, read_offsets_app, IH. reflexivity.
Qed.

(** Every write of the loop lands on one of its offsets, with two bytes
    left there, and writes the two bytes that are already there. *)
Lemma elem_of_loop_log_write (c : list byte) (offs : list Z) (pos : Z)
    (data : list byte) :
  EvWrite pos data ∈ loop_log c offs →
  pos ∈ offs ∧ pos + 2 ≤ Z.of_nat (length c) ∧ data = read_at c pos 2.
Proof.
  induction offs as [|i rest IH]; cbn [loop_log].
  - intros []%elem_of_nil.
  - case_decide as Hlen.
    + rewrite elem_of_app. intros [Hin|Hin].
      * unfold block_log in Hin. rewrite !elem_of_cons in Hin.
        destruct Hin as [?|[?|[?|[Heq|[]%elem_of_nil]]]]; try discriminate.
        injection Heq as -> ->. split; [left|]; done.
      * destruct (IH Hin) as (? & ? & ?). split; [right|]; done.
    + unfold short_log. rewrite !elem_of_cons.
      intros [?|[?|[]%elem_of_nil]]; discriminate.
Qed.

(** Every offset of the loop over the offsets of the file's size is read,
    whether the loop completes or stops at a short read. *)
Lemma read_offsets_loop (c : list byte) :
  let size := Z.of_nat (length c) in
  read_offsets (loop_log c (block_offsets size)) = block_offsets size.
Proof.
  intros size.
  destruct (decide (size mod BLOCKSIZE = 1)) as [Hmod|Hmod].
  - destruct (block_offsets_short size ltac:(lia) Hmod) as [-> Hpre].
    destruct (loop_short c _ (size - 1) Hpre ltac:(lia)) as [_ ->].
    rewrite read_offsets_app, read_offsets_blocks. reflexivity.
  - destruct (loop_full c _ (block_offsets_full size Hmod)) as [_ ->].
    apply read_offsets_blocks.
Qed.

Lemma read_at_2_last_byte (c : list byte) (pos : Z) :
  0 ≤ pos → pos + 1 = Z.of_nat (length c) →
  ∃ b, read_at c pos 2 = [b] ∧ c !! Z.to_nat pos = Some b.
Proof.
  intros Hpos Hlen. pose proof (read_at_2_last c pos Hpos Hlen) as Hone.
  destruct (read_at c pos 2) as [|b [|? ?]] eqn:Hread; try discriminate Hone.
  exists b. split; [reflexivity|].
  assert (read_at c pos 2 !! 0%nat = Some b) as Hb by (by rewrite Hread).
  unfold read_at in Hb. cbn [Z.ltb Z.compare] in Hb.
  rewrite lookup_take_lt, lookup_drop, Nat.add_0_r in Hb by lia. exact Hb.
Qed.

Lemma size_of_nonneg (f : inode) : 0 ≤ size_of f.
Proof. unfold size_of. lia. Qed.

Lemma size_of_mod_1_pos (f : inode) : size_of f mod BLOCKSIZE = 1 → 1 ≤ size_of f.
Proof.
  intros Hmod. pose proof (size_of_nonneg f).
  destruct (decide (size_of f = 0)) as [H0|]; [|lia].
  rewrite H0, Z.mod_0_l in Hmod; [lia | pose proof BLOCKSIZE_pos; lia].
Qed.

(** The run on a file whose size is 1 modulo [BLOCKSIZE]: complete
    iterations at the offsets before the last, then a seek to the last
    offset and a read that returns the single byte left. *)
Lemma run_log_short (σ : world) (path : string) (f : inode) :
  files σ !! path = Some f → openable f →
  size_of f mod BLOCKSIZE = 1 →
  let last := size_of f - 1 in
  let pre := block_offsets last in
  block_offsets (size_of f) = pre ++ [last] ∧
  Forall (λ i, i + 2 ≤ size_of f) pre ∧
  (rewrite_file path σ).1 = inl ValueError ∧
  run_log path σ =
    [EvOpen path] ++ (pre ≫= block_log (i_data f))
      ++ short_log (i_data f) last ++ [EvClose].
Proof.
  intros Hpath Hperm Hmod last pre.
  destruct (block_offsets_short (size_of f) (size_of_nonneg f) Hmod)
    as [Hoffs Hpre].
  destruct (loop_short (i_data f) pre last Hpre ltac:(unfold last, size_of; lia))
    as [Hres Hlog].
  rewrite (run_log_run σ path f), (rewrite_file_run σ path f) by done.
  fold (size_of f). rewrite Hoffs. cbn [fst]. fold last pre.
  rewrite Hres, Hlog, <- app_assoc. done.
Qed.

Lemma read_offsets_run (σ : world) (path : string) (f : inode) :
  files σ !! path = Some f → openable f →
  read_offsets (run_log path σ) = block_offsets (size_of f).
Proof.
  intros Hpath Hperm. rewrite (run_log_run σ path f) by done.
  rewrite !read_offsets_app. cbn [read_offsets omap app].
  rewrite app_nil_r. apply read_offsets_loop.
Qed.

Lemma block_offsets_below (size : Z) : offsets_below size (block_offsets size).
Proof.
  split; [apply block_offsets_ascending | apply elem_of_block_offsets].
Qed.

(** Every write of a run is made on an opened file, at one of the offsets
    of its size, with two bytes left there, and writes the two bytes that
    are already there. *)
Lemma elem_of_run_log_write (σ : world) (path : string) (pos : Z)
    (data : list byte) :
  EvWrite pos data ∈ run_log path σ →
  ∃ f, files σ !! path = Some f ∧ openable f ∧
       pos ∈ block_offsets (size_of f) ∧
       pos + 2 ≤ size_of f ∧
       data = read_at (i_data f) pos 2 ∧ length data = 2%nat.
Proof.
  intros Hin.
  destruct (files σ !! path) as [f|] eqn:Hpath;
    [|rewrite run_log_missing in Hin by done; by apply elem_of_nil in Hin].
  destruct (decide (openable f)) as [Hperm|Hperm];
    [|rewrite (run_log_denied σ path f) in Hin by done;
      by apply elem_of_nil in Hin].
  rewrite (run_log_run σ path f) in Hin by done.
  rewrite !elem_of_app, !elem_of_cons in Hin.
  destruct Hin as [[?|[]%elem_of_nil]|[Hin|[?|[]%elem_of_nil]]];
    try discriminate.
  apply elem_of_loop_log_write in Hin as (Hpos & Hlen & ->).
  exists f. repeat split; try done.
  apply read_at_2_full; [|done].
  apply elem_of_block_offsets in Hpos. lia.
Qed.

Lemma open_rb_plus_inv (σ σ1 : world) (path : string) (file : nat) :
  open_rb_plus path σ = (inr file, σ1) →
  ∃ f, files σ !! path = Some f ∧ files σ1 = files σ ∧
       objs σ1 !! file = Some (FileObject path 0).
Proof.
  unfold open_rb_plus. destruct (files σ !! path) as [f|]; [|discriminate].
  destruct (i_readable f && i_writable f); [|discriminate].
  intros [= <- <-]. exists f. cbn [files objs].
  rewrite lookup_insert_eq. done.
Qed.

Lemma getsize_inv (σ σ0 : world) (path : string) (size : Z) :
  getsize path σ = (inr size, σ0) →
  σ0 = σ ∧ ∃ f, files σ !! path = Some f ∧ size = size_of f.
Proof.
  unfold getsize. destruct (files σ !! path) as [f|]; [|discriminate].
  intros [= <- <-]. split; [reflexivity|]. by exists f.
Qed.

(** ** The sizes the specification singles out *)

Example offsets_one_block : block_offsets BLOCKSIZE = [0].
Proof. reflexivity. Qed.

Example offsets_two_blocks_50 :
  block_offsets (2 * BLOCKSIZE + 50) = [0; BLOCKSIZE; 2 * BLOCKSIZE].
Proof. reflexivity. Qed.

Example offsets_block_plus_one :
  block_offsets (BLOCKSIZE + 1) = [0; BLOCKSIZE].
Proof. reflexivity. Qed.

(** Exactly one block: offset 0 alone is processed. *)
Example run_one_block :
  let r := rewrite_file "f" (disk "f" (zeros BLOCKSIZE)) in
  r.1 = inr () ∧
  log r.2 =
    [EvOpen "f"; EvSeek 0; EvRead 0 2 ["000"; "000"]%byte;
     EvSeek 0; EvWrite 0 ["000"; "000"]%byte; EvClose].
Proof. split; vm_compute; reflexivity. Qed.

(** Two blocks and 50 bytes: offsets 0, [BLOCKSIZE] and [2 * BLOCKSIZE],
    the last being the start of the trailing 50 bytes. *)
Example run_two_blocks_50 :
  let r := rewrite_file "f" (disk "f" (zeros (2 * BLOCKSIZE + 50))) in
  r.1 = inr () ∧
  log r.2 =
    [EvOpen "f"; EvSeek 0; EvRead 0 2 ["000"; "000"]%byte;
     EvSeek 0; EvWrite 0 ["000"; "000"]%byte;
     EvSeek BLOCKSIZE; EvRead BLOCKSIZE 2 ["000"; "000"]%byte;
     EvSeek BLOCKSIZE; EvWrite BLOCKSIZE ["000"; "000"]%byte;
     EvSeek (2 * BLOCKSIZE); EvRead (2 * BLOCKSIZE) 2 ["000"; "000"]%byte;
     EvSeek (2 * BLOCKSIZE); EvWrite (2 * BLOCKSIZE) ["000"; "000"]%byte;
     EvClose].
Proof. split; vm_compute; reflexivity. Qed.

(** One block and one byte: the read at [BLOCKSIZE] is short and the run
    raises. *)
Example run_block_plus_one :
  let r := rewrite_file "f" (disk "f" (zeros (BLOCKSIZE + 1))) in
  r.1 = inl ValueError ∧
  log r.2 =
    [EvOpen "f"; EvSeek 0; EvRead 0 2 ["000"; "000"]%byte;
     EvSeek 0; EvWrite 0 ["000"; "000"]%byte;
     EvSeek BLOCKSIZE; EvRead BLOCKSIZE 2 ["000"]%byte; EvClose].
Proof. split; vm_compute; reflexivity. Qed.

Example main_runs_on_first_argument :
  main ["rewrite.py"; "f"] (disk "f" (rw ["a"; "b"; "c"]%byte)) =
  rewrite_file "f" (disk "f" (rw ["a"; "b"; "c"]%byte)).
Proof. reflexivity. Qed.

(** A file that exists but may not be written is not opened. *)
Example run_read_only :
  rewrite_file "f" (disk "f" (Inode ["a"; "b"]%byte true false)) =
  (inl PermissionError, disk "f" (Inode ["a"; "b"]%byte true false)).
Proof. vm_compute. reflexivity. Qed.

(** On a file whose size is not 1 modulo [BLOCKSIZE], the two bytes at
    every offset are written. *)
Lemma run_log_write_elem (σ : world) (path : string) (f : inode) (pos : Z) :
  files σ !! path = Some f → openable f →
  size_of f mod BLOCKSIZE ≠ 1 →
  pos ∈ block_offsets (size_of f) →
  EvWrite pos (read_at (i_data f) pos 2) ∈ run_log path σ.
Proof.
  intros Hpath Hperm Hmod Hpos. rewrite (run_log_run σ path f) by done.
  destruct (loop_full (i_data f) _ (block_offsets_full _ Hmod)) as [_ ->].
  rewrite !elem_of_app. right. left.
  apply list_elem_of_bind. exists pos. split; [|exact Hpos].
  unfold block_log. rewrite !elem_of_cons. auto.
Qed.

(** ** The properties of the specification *)

(** C1, content invariance: for a file whose size is not congruent to 1
    modulo [BLOCKSIZE], the content after [rewrite_file] is byte for byte
    the content before; the run returns normally when the file can be
    opened for reading and writing. *)
Theorem content_invariance (σ : world) (path : string) (f : inode) :
  files σ !! path = Some f →
  size_of f mod BLOCKSIZE ≠ 1 →
  i_data <$> files (rewrite_file path σ).2 !! path = Some (i_data f) ∧
  (openable f → (rewrite_file path σ).1 = inr ()).
Proof.
  intros Hpath Hmod. split.
  - destruct (files_rewrite_file σ path) as [-> _]. by rewrite Hpath.
  - intros Hperm. rewrite (rewrite_file_run σ path f) by done. cbn [fst].
    apply loop_full, block_offsets_full, Hmod.
Qed.

Lemma content_invariance_witness :
  let f := zeros (2 * BLOCKSIZE + 50) in
  let σ := disk "f" f in
  (files σ !! "f" = Some f ∧ size_of f mod BLOCKSIZE ≠ 1) ∧
  i_data <$> files (rewrite_file "f" σ).2 !! "f" = Some (i_data f) ∧
  (openable f → (rewrite_file "f" σ).1 = inr ()).
Proof.
  intros f σ.
  assert (files σ !! "f" = Some f) as H1 by reflexivity.
  assert (size_of f mod BLOCKSIZE ≠ 1) as H2 by (vm_compute; discriminate).
  split; [exact (conj H1 H2)|].
  exact (content_invariance σ "f" f H1 H2).
Defined.

(** C2, short read: on a file whose size is congruent to 1 modulo
    [BLOCKSIZE], the read at the last offset, [size - 1], returns the one
    byte that is left, unpacking it raises [ValueError], and the file
    object is closed right after that read: nothing is written at that
    offset. *)
Theorem short_read_fails (σ : world) (path : string) (f : inode) :
  files σ !! path = Some f →
  openable f →
  size_of f mod BLOCKSIZE = 1 →
  let last := size_of f - 1 in
  ∃ (b : byte) (before : list event),
    i_data f !! Z.to_nat last = Some b ∧
    run_log path σ = before ++ [EvSeek last; EvRead last 2 [b]; EvClose] ∧
    (rewrite_file path σ).1 = inl ValueError ∧
    ∀ data, EvWrite last data ∉ run_log path σ.
Proof.
  intros Hpath Hperm Hmod last.
  destruct (run_log_short σ path f Hpath Hperm Hmod) as (_ & _ & Hres & Hlog).
  fold last in Hlog.
  pose proof (size_of_mod_1_pos f Hmod) as Hsize.
  destruct (read_at_2_last_byte (i_data f) last) as (b & Hread & Hb);
    [unfold last; lia | unfold last, size_of; lia |].
  exists b, ([EvOpen path] ++ (block_offsets last ≫= block_log (i_data f))).
  split; [exact Hb|]. split; [|split; [exact Hres|]].
  - rewrite Hlog. unfold short_log. rewrite Hread, <- !app_assoc. reflexivity.
  - intros data (f' & Hpath' & _ & _ & Hlen & _)%elem_of_run_log_write.
    assert (f' = f) as -> by congruence. unfold last in Hlen. lia.
Qed.

Lemma short_read_fails_witness :
  let f := zeros (BLOCKSIZE + 1) in
  let σ := disk "f" f in
  (files σ !! "f" = Some f ∧ openable f ∧ size_of f mod BLOCKSIZE = 1) ∧
  ∃ (b : byte) (before : list event),
    i_data f !! Z.to_nat (size_of f - 1) = Some b ∧
    run_log "f" σ =
      before ++ [EvSeek (size_of f - 1); EvRead (size_of f - 1) 2 [b]; EvClose] ∧
    (rewrite_file "f" σ).1 = inl ValueError ∧
    ∀ data, EvWrite (size_of f - 1) data ∉ run_log "f" σ.
Proof.
  intros f σ.
  assert (files σ !! "f" = Some f) as H1 by reflexivity.
  assert (openable f) as H2 by reflexivity.
  assert (size_of f mod BLOCKSIZE = 1) as H3 by (vm_compute; reflexivity).
  split; [exact (conj H1 (conj H2 H3))|].
  exact (short_read_fails σ "f" f H1 H2 H3).
Defined.

(** C3 as stated fails on a file of one byte: offset 0 is processed, the
    read returns one byte, and the run ends without seeking back or
    writing. *)
Lemma offset_sequence_counterexample : ¬ stated_offset_sequence.
Proof.
  intros Hclaim.
  destruct (Hclaim (disk "f" (rw ["a"]%byte)) "f" (rw ["a"]%byte))
    as [_ [Hfull _]]; [reflexivity..|].
  apply Forall_inv in Hfull. discriminate Hfull.
Qed.

(** C3, offset sequence, amended: on a file that can be opened, the
    offsets processed are exactly the multiples of [BLOCKSIZE] below the
    size, in ascending order.  When the size is not congruent to 1 modulo
    [BLOCKSIZE], the run does at each of them: seek, read two bytes, seek
    back, write these two bytes.  When it is, the run does so at every
    offset but the last, [size - 1], where it seeks, reads the one byte
    left and ends with [ValueError]. *)
Theorem offset_sequence (σ : world) (path : string) (f : inode) :
  files σ !! path = Some f →
  openable f →
  let offs := read_offsets (run_log path σ) in
  let c := i_data f in
  offsets_below (size_of f) offs ∧
  (size_of f mod BLOCKSIZE ≠ 1 → rewrites_each_offset σ path c) ∧
  (size_of f mod BLOCKSIZE = 1 →
     ∃ (pre : list Z) (b : byte),
       let last := size_of f - 1 in
       offs = pre ++ [last] ∧
       Forall (λ i, length (read_at c i 2) = 2%nat) pre ∧
       run_log path σ =
         [EvOpen path] ++ (pre ≫= block_log c)
           ++ [EvSeek last; EvRead last 2 [b]] ++ [EvClose] ∧
       (rewrite_file path σ).1 = inl ValueError).
Proof.
  intros Hpath Hperm offs c.
  assert (offs = block_offsets (size_of f)) as Hoffs
    by (by apply read_offsets_run).
  assert (∀ l, Forall (λ i, i + 2 ≤ size_of f) l →
               Forall (λ i, 0 ≤ i) l →
               Forall (λ i, length (read_at c i 2) = 2%nat) l) as Hfull.
  { intros l H1 H2. rewrite Forall_forall in H1, H2.
    apply Forall_forall. intros i Hi.
    apply read_at_2_full; [by apply H2 | by apply H1]. }
  split; [|split].
  - rewrite Hoffs. apply block_offsets_below.
  - intros Hmod. unfold rewrites_each_offset. fold offs. rewrite Hoffs. split.
    + apply Hfull; [by apply block_offsets_full | apply block_offsets_nonneg].
    + rewrite (run_log_run σ path f) by done.
      destruct (loop_full (i_data f) _ (block_offsets_full _ Hmod)) as [_ ->].
      done.
  - intros Hmod.
    destruct (run_log_short σ path f Hpath Hperm Hmod)
      as (Hlast & Hpre & Hres & Hlog).
    pose proof (size_of_mod_1_pos f Hmod) as Hsize.
    destruct (read_at_2_last_byte c (size_of f - 1)) as (b & Hread & _);
      [lia | unfold size_of, c; lia |].
    exists (block_offsets (size_of f - 1)), b. cbv zeta.
    split; [by rewrite Hoffs|]. split; [|split; [|exact Hres]].
    + apply Hfull; [done | apply block_offsets_nonneg].
    + rewrite Hlog. unfold short_log. fold c. rewrite Hread. done.
Qed.

Lemma offset_sequence_witness :
  let f := zeros (2 * BLOCKSIZE + 50) in
  let σ := disk "f" f in
  (files σ !! "f" = Some f ∧ openable f) ∧
  offsets_below (size_of f) (read_offsets (run_log "f" σ)) ∧
  (size_of f mod BLOCKSIZE ≠ 1 → rewrites_each_offset σ "f" (i_data f)) ∧
  (size_of f mod BLOCKSIZE = 1 →
     ∃ (pre : list Z) (b : byte),
       read_offsets (run_log "f" σ) = pre ++ [size_of f - 1] ∧
       Forall (λ i, length (read_at (i_data f) i 2) = 2%nat) pre ∧
       run_log "f" σ =
         [EvOpen "f"] ++ (pre ≫= block_log (i_data f))
           ++ [EvSeek (size_of f - 1); EvRead (size_of f - 1) 2 [b]] ++ [EvClose] ∧
       (rewrite_file "f" σ).1 = inl ValueError).
Proof.
  intros f σ.
  assert (files σ !! "f" = Some f) as H1 by reflexivity.
  assert (openable f) as H2 by reflexivity.
  split; [exact (conj H1 H2)|].
  exact (offset_sequence σ "f" f H1 H2).
Defined.

(** C4, per-offset invariant: take any run up to the point where the
    loop has gone through the offsets [pre] without raising and is about
    to process offset [i].  Whatever the iteration at [i] does, return or
    raise, the bytes of the file at offset [i] are the same after it as
    before it. *)
Theorem per_offset_invariant (σ σ0 σ1 σb : world) (path : string)
    (size : Z) (file : nat) (pre post : list Z) (i : Z) :
  getsize path σ = (inr size, σ0) →
  open_rb_plus path σ0 = (inr file, σ1) →
  range 0 size BLOCKSIZE = inr (pre ++ i :: post) →
  for_ pre (rewrite_block file) σ1 = (inr (), σb) →
  ∃ w, window σb path i = Some w ∧
       window (rewrite_block file i σb).2 path i = Some w.
Proof.
  intros [-> (f & Hpath & ->)]%getsize_inv Hopen Hrange Hloop.
  apply open_rb_plus_inv in Hopen as (f' & Hpath' & Hfiles & Hfile).
  assert (f' = f) as -> by congruence.
  rewrite range_block_offsets in Hrange. injection Hrange as Hoffs.
  pose proof (block_offsets_nonneg (size_of f)) as Hnonneg.
  rewrite Hoffs in Hnonneg.
  apply Forall_app in Hnonneg as [Hpre [Hi _]%Forall_cons].
  destruct (for_rewrite_block file path f pre Hpre σ1 0 Hfile)
    as [p Hrun]; [congruence|].
  rewrite Hrun in Hloop. injection Hloop as _ <-.
  set (σb := World _ _ _).
  assert (files σb !! path = Some f) as Hpathb by (cbn; congruence).
  assert (objs σb !! file = Some (FileObject path p)) as Hfileb
    by apply lookup_insert_eq.
  exists (read_at (i_data f) i 2). unfold window. rewrite Hpathb.
  split; [reflexivity|].
  destruct (decide (i + 2 ≤ Z.of_nat (length (i_data f)))) as [Hlen|Hlen].
  - rewrite (rewrite_block_full file path f σb p i) by done.
    cbn [snd files]. by rewrite Hpathb.
  - rewrite (rewrite_block_short file path f σb p i) by (done || lia).
    cbn [snd files]. by rewrite Hpathb.
Qed.

Lemma per_offset_invariant_witness :
  let f := zeros (BLOCKSIZE + 1) in
  let σ := disk "f" f in
  let σ1 := World {[ "f" := f ]} {[ 0%nat := FileObject "f" 0 ]} [EvOpen "f"] in
  let σb := (for_ [0] (rewrite_block 0) σ1).2 in
  (getsize "f" σ = (inr (size_of f), σ) ∧
   open_rb_plus "f" σ = (inr 0%nat, σ1) ∧
   range 0 (size_of f) BLOCKSIZE = inr ([0] ++ BLOCKSIZE :: []) ∧
   for_ [0] (rewrite_block 0) σ1 = (inr (), σb)) ∧
  ∃ w, window σb "f" BLOCKSIZE = Some w ∧
       window (rewrite_block 0 BLOCKSIZE σb).2 "f" BLOCKSIZE = Some w.
Proof.
  intros f σ σ1 σb.
  assert (getsize "f" σ = (inr (size_of f), σ)) as H1 by reflexivity.
  assert (open_rb_plus "f" σ = (inr 0%nat, σ1)) as H2 by reflexivity.
  assert (range 0 (size_of f) BLOCKSIZE = inr ([0] ++ BLOCKSIZE :: [])) as H3
    by (vm_compute; reflexivity).
  assert (for_ [0] (rewrite_block 0) σ1 = (inr (), σb)) as H4.
  { rewrite (surjective_pairing (for_ [0] (rewrite_block 0) σ1)).
    apply (f_equal2 pair); [vm_compute; reflexivity | reflexivity]. }
  split; [exact (conj H1 (conj H2 (conj H3 H4)))|].
  exact (per_offset_invariant σ σ σ1 σb "f" (size_of f) 0 [0] [] BLOCKSIZE
           H1 H2 H3 H4).
Defined.

(** C5, idempotence: when [rewrite_file] returns normally, running it a
    second time returns normally too and leaves every file byte for byte
    as the first run left it. *)
Theorem idempotence (σ : world) (path : string) :
  (rewrite_file path σ).1 = inr () →
  let σ1 := (rewrite_file path σ).2 in
  (rewrite_file path σ1).1 = inr () ∧
  files (rewrite_file path σ1).2 = files σ1.
Proof.
  intros Hok σ1. split; [|apply files_rewrite_file].
  subst σ1. destruct (files σ !! path) as [f|] eqn:Hpath.
  - destruct (i_readable f && i_writable f) eqn:Hperm.
    + rewrite (rewrite_file_run σ path f) in * by done.
      cbn [fst snd] in *.
      rewrite (rewrite_file_run _ path f) by done. exact Hok.
    + rewrite (rewrite_file_denied σ path f) in Hok by done. discriminate.
  - rewrite rewrite_file_missing in Hok by done. discriminate.
Qed.

Lemma idempotence_witness :
  let σ := disk "f" (zeros (2 * BLOCKSIZE + 50)) in
  (rewrite_file "f" σ).1 = inr () ∧
  (rewrite_file "f" (rewrite_file "f" σ).2).1 = inr () ∧
  files (rewrite_file "f" (rewrite_file "f" σ).2).2 = files (rewrite_file "f" σ).2.
Proof.
  intros σ.
  assert ((rewrite_file "f" σ).1 = inr ()) as H1 by (vm_compute; reflexivity).
  split; [exact H1|].
  exact (idempotence σ "f" H1).
Defined.

(** C6 as stated fails on its own example: on a file of two blocks and 50
    bytes the offset [2 * BLOCKSIZE] is below the size, so it is processed
    too, and the first two of the last 50 bytes are written. *)
Lemma frame_condition_counterexample : ¬ stated_frame_condition.
Proof.
  intros Hclaim.
  destruct (Hclaim (disk "f" (zeros (2 * BLOCKSIZE + 50))) "f") as [_ Hex].
  destruct (Hex (zeros (2 * BLOCKSIZE + 50))) as [Hoffs _];
    [reflexivity | reflexivity | vm_compute; reflexivity |].
  vm_compute in Hoffs. discriminate Hoffs.
Qed.

(** C6, frame condition, amended: every write of the run starts at a
    multiple of [BLOCKSIZE] and is two bytes long, every byte position
    under a write lies inside the file, at most one byte after a block
    boundary, and the run leaves every file, its length included, as it
    was.  On a file of two blocks and 50 bytes the offsets 0, [BLOCKSIZE]
    and [2 * BLOCKSIZE] are processed, and the bytes written are the two
    at each of them: of the last 50 bytes, the first two and no other. *)
Theorem frame_condition (σ : world) (path : string) :
  writes_in_windows σ path ∧
  ∀ f, files σ !! path = Some f → openable f →
       size_of f = 2 * BLOCKSIZE + 50 →
       read_offsets (run_log path σ) = [0; BLOCKSIZE; 2 * BLOCKSIZE] ∧
       ∀ j, written (run_log path σ) j ↔
            j = 0 ∨ j = 1 ∨ j = BLOCKSIZE ∨ j = BLOCKSIZE + 1 ∨
            j = 2 * BLOCKSIZE ∨ j = 2 * BLOCKSIZE + 1.
Proof.
  split; [split; [|split]|].
  - intros pos data (f & _ & _ & Hpos%elem_of_block_offsets & _ & _ & Hdata)
      %elem_of_run_log_write.
    split; [lia | done].
  - intros j (pos & data & Hin & Hj).
    apply elem_of_run_log_write in Hin
      as (f & Hpath & _ & Hpos%elem_of_block_offsets & Hlen & _ & Hdata).
    exists f. split; [done|]. rewrite Hdata in Hj. split; [lia|].
    pose proof BLOCKSIZE_ge_2.
    replace j with ((j - pos) + pos) by lia.
    rewrite <- Zplus_mod_idemp_r. destruct Hpos as [_ ->].
    rewrite Z.add_0_r, Z.mod_small; lia.
  - apply files_rewrite_file.
  - intros f Hpath Hperm Hsize.
    assert (size_of f mod BLOCKSIZE ≠ 1) as Hmod
      by (rewrite Hsize; vm_compute; discriminate).
    split; [by rewrite (read_offsets_run σ path f), Hsize|].
    intros j. split.
    + intros (pos & data & Hin & Hj).
      apply elem_of_run_log_write in Hin
        as (f' & Hpath' & _ & Hpos & _ & _ & Hdata).
      assert (f' = f) as -> by congruence.
      rewrite Hsize, offsets_two_blocks_50, !elem_of_cons in Hpos.
      rewrite Hdata in Hj.
      destruct Hpos as [->|[->|[->|[]%elem_of_nil]]]; lia.
    + intros Hj.
      assert (∀ pos, pos ∈ [0; BLOCKSIZE; 2 * BLOCKSIZE] →
                written (run_log path σ) pos ∧
                written (run_log path σ) (pos + 1)) as Hw.
      { intros pos Hpos. rewrite <- offsets_two_blocks_50, <- Hsize in Hpos.
        pose proof (run_log_write_elem σ path f pos Hpath Hperm Hmod Hpos) as Hin.
        assert (length (read_at (i_data f) pos 2) = 2%nat) as Hlen.
        { apply elem_of_run_log_write in Hin as (_ & _ & _ & _ & _ & _ & ?).
          done. }
        split; exists pos, (read_at (i_data f) pos 2);
          (split; [exact Hin | rewrite Hlen; lia]). }
      destruct (Hw 0) as [Ha0 Ha1]; [rewrite !elem_of_cons; auto|].
      destruct (Hw BLOCKSIZE) as [Hb0 Hb1]; [rewrite !elem_of_cons; auto|].
      destruct (Hw (2 * BLOCKSIZE)) as [Hc0 Hc1]; [rewrite !elem_of_cons; auto|].
      destruct Hj as [->|[->|[->|[->|[->| ->]]]]]; assumption.
Qed.

Lemma frame_condition_witness :
  let f := zeros (2 * BLOCKSIZE + 50) in
  let σ := disk "f" f in
  (files σ !! "f" = Some f ∧ openable f ∧ size_of f = 2 * BLOCKSIZE + 50) ∧
  writes_in_windows σ "f" ∧
  read_offsets (run_log "f" σ) = [0; BLOCKSIZE; 2 * BLOCKSIZE] ∧
  ∀ j, written (run_log "f" σ) j ↔
       j = 0 ∨ j = 1 ∨ j = BLOCKSIZE ∨ j = BLOCKSIZE + 1 ∨
       j = 2 * BLOCKSIZE ∨ j = 2 * BLOCKSIZE + 1.
Proof.
  intros f σ.
  assert (files σ !! "f" = Some f) as H1 by reflexivity.
  assert (openable f) as H2 by reflexivity.
  assert (size_of f = 2 * BLOCKSIZE + 50) as H3 by (vm_compute; reflexivity).
  split; [exact (conj H1 (conj H2 H3))|].
  split; [exact (proj1 (frame_condition σ "f"))|].
  exact (proj2 (frame_condition σ "f") f H1 H2 H3).
Defined.

(** C7, missing file: on a path that names no file, [rewrite_file] raises
    [FileNotFoundError]; nothing is opened, read or written, no file
    appears at the path and no other file changes. *)
Theorem missing_file (σ : world) (path : string) :
  files σ !! path = None →
  (rewrite_file path σ).1 = inl FileNotFoundError ∧
  files (rewrite_file path σ).2 !! path = None ∧
  files (rewrite_file path σ).2 = files σ ∧
  run_log path σ = [].
Proof.
  intros Hpath. rewrite run_log_missing, rewrite_file_missing by done.
  done.
Qed.

Lemma missing_file_witness :
  let σ := disk "f" (rw ["a"; "b"]%byte) in
  files σ !! "g" = None ∧
  (rewrite_file "g" σ).1 = inl FileNotFoundError ∧
  files (rewrite_file "g" σ).2 !! "g" = None ∧
  files (rewrite_file "g" σ).2 = files σ ∧
  run_log "g" σ = [].
Proof.
  intros σ.
  assert (files σ !! "g" = None) as H1 by reflexivity.
  split; [exact H1|].
  exact (missing_file σ "g" H1).
Defined.

(** C8, empty file: on a file of 0 bytes that can be opened,
    [rewrite_file] returns normally, the file object is opened and closed
    with no seek, read or write in between, and the file is still there
    with 0 bytes. *)
Theorem empty_file_noop (σ : world) (path : string) (f : inode) :
  files σ !! path = Some f →
  openable f →
  i_data f = [] →
  (rewrite_file path σ).1 = inr () ∧
  run_log path σ = [EvOpen path; EvClose] ∧
  i_data <$> files (rewrite_file path σ).2 !! path = Some [].
Proof.
  intros Hpath Hperm Hempty.
  rewrite (run_log_run σ path f), (rewrite_file_run σ path f) by done.
  unfold size_of. rewrite Hempty. cbn [fst snd files length].
  rewrite Hpath. cbn. rewrite Hempty. done.
Qed.

Lemma empty_file_noop_witness :
  let f := rw [] in
  let σ := disk "f" f in
  (files σ !! "f" = Some f ∧ openable f ∧ i_data f = []) ∧
  (rewrite_file "f" σ).1 = inr () ∧
  run_log "f" σ = [EvOpen "f"; EvClose] ∧
  i_data <$> files (rewrite_file "f" σ).2 !! "f" = Some [].
Proof.
  intros f σ.
  assert (files σ !! "f" = Some f) as H1 by reflexivity.
  assert (openable f) as H2 by reflexivity.
  assert (i_data f = []) as H3 by reflexivity.
  split; [exact (conj H1 (conj H2 H3))|].
  exact (empty_file_noop σ "f" f H1 H2 H3).
Defined.

(** C9, the short read leaves the file alone: on a file whose size is
    congruent to 1 modulo [BLOCKSIZE] the run raises [ValueError], no
    write is made at the last offset, every write that was made is at an
    earlier offset and wrote the two bytes the file already had there, and
    every file has the content it had before the run. *)
Theorem short_read_content_unchanged (σ : world) (path : string) (f : inode) :
  files σ !! path = Some f →
  openable f →
  size_of f mod BLOCKSIZE = 1 →
  (rewrite_file path σ).1 = inl ValueError ∧
  (∀ data, EvWrite (size_of f - 1) data ∉ run_log path σ) ∧
  (∀ pos data, EvWrite pos data ∈ run_log path σ →
     pos < size_of f - 1 ∧ data = read_at (i_data f) pos 2) ∧
  files (rewrite_file path σ).2 = files σ.
Proof.
  intros Hpath Hperm Hmod.
  destruct (run_log_short σ path f Hpath Hperm Hmod) as (_ & _ & Hres & _).
  assert (∀ pos data, EvWrite pos data ∈ run_log path σ →
            pos + 2 ≤ size_of f ∧ data = read_at (i_data f) pos 2) as Hwrites.
  { intros pos data (f' & Hpath' & _ & _ & Hlen & Hdata & _)%elem_of_run_log_write.
    assert (f' = f) as -> by congruence. done. }
  split; [exact Hres|]. split; [|split].
  - intros data Hin. apply Hwrites in Hin as [Hlen _]. lia.
  - intros pos data Hin. apply Hwrites in Hin as [Hlen Hdata].
    split; [lia | exact Hdata].
  - apply files_rewrite_file.
Qed.

Lemma short_read_content_unchanged_witness :
  let f := zeros (BLOCKSIZE + 1) in
  let σ := disk "f" f in
  (files σ !! "f" = Some f ∧ openable f ∧ size_of f mod BLOCKSIZE = 1) ∧
  (rewrite_file "f" σ).1 = inl ValueError ∧
  (∀ data, EvWrite (size_of f - 1) data ∉ run_log "f" σ) ∧
  (∀ pos data, EvWrite pos data ∈ run_log "f" σ →
     pos < size_of f - 1 ∧ data = read_at (i_data f) pos 2) ∧
  files (rewrite_file "f" σ).2 = files σ.
Proof.
  intros f σ.
  assert (files σ !! "f" = Some f) as H1 by reflexivity.
  assert (openable f) as H2 by reflexivity.
  assert (size_of f mod BLOCKSIZE = 1) as H3 by (vm_compute; reflexivity).
  split; [exact (conj H1 (conj H2 H3))|].
  exact (short_read_content_unchanged σ "f" f H1 H2 H3).
Defined.

(** C10, termination and iteration count: [rewrite_file] is a total
    function, so every run ends; on a file that can be opened the loop
    body is entered, and its one read made, exactly
    [ceil(size / BLOCKSIZE)] times: no time at all on an empty file. *)
Theorem iteration_count (σ : world) (path : string) (f : inode) :
  files σ !! path = Some f →
  openable f →
  Z.of_nat (length (read_offsets (run_log path σ))) =
    ceil_div (size_of f) BLOCKSIZE ∧
  (size_of f = 0 → read_offsets (run_log path σ) = []).
Proof.
  intros Hpath Hperm. rewrite (read_offsets_run σ path f) by done.
  split.
  - apply length_block_offsets, size_of_nonneg.
  - intros ->. reflexivity.
Qed.

Lemma iteration_count_witness :
  let f := zeros (2 * BLOCKSIZE + 50) in
  let σ := disk "f" f in
  (files σ !! "f" = Some f ∧ openable f) ∧
  Z.of_nat (length (read_offsets (run_log "f" σ))) =
    ceil_div (size_of f) BLOCKSIZE ∧
  (size_of f = 0 → read_offsets (run_log "f" σ) = []).
Proof.
  intros f σ.
  assert (files σ !! "f" = Some f) as H1 by reflexivity.
  assert (openable f) as H2 by reflexivity.
  split; [exact (conj H1 H2)|].
  exact (iteration_count σ "f" f H1 H2).
Defined.

(** ** Further properties of the code *)

(** The result of a run, by cases on the file at the path. *)
Lemma rewrite_file_result (σ : world) (path : string) :
  (rewrite_file path σ).1 =
    match files σ !! path with
    | None => inl FileNotFoundError
    | Some f =>
        if i_readable f && i_writable f
        then if decide (size_of f mod BLOCKSIZE = 1) then inl ValueError else inr ()
        else inl PermissionError
    end.
Proof.
  destruct (files σ !! path) as [f|] eqn:Hpath;
    [|by rewrite rewrite_file_missing].
  destruct (i_readable f && i_writable f) eqn:Hperm;
    [|by rewrite (rewrite_file_denied σ path f)].
  case_decide as Hmod.
  - by destruct (run_log_short σ path f Hpath Hperm Hmod) as (_ & _ & -> & _).
  - rewrite (rewrite_file_run σ path f) by done. cbn [fst].
    apply loop_full, block_offsets_full, Hmod.
Qed.

(** Two worlds that hold the same file at [path] give the same run. *)
Lemma rewrite_file_agree (σ1 σ2 : world) (path : string) :
  files σ1 !! path = files σ2 !! path →
  (rewrite_file path σ1).1 = (rewrite_file path σ2).1 ∧
  run_log path σ1 = run_log path σ2.
Proof.
  intros Heq. split; [by rewrite !rewrite_file_result, Heq|].
  destruct (files σ2 !! path) as [f|] eqn:Hpath.
  - destruct (decide (openable f)) as [Hperm|Hperm].
    + by rewrite (run_log_run σ1 path f), (run_log_run σ2 path f).
    + by rewrite (run_log_denied σ1 path f), (run_log_denied σ2 path f).
  - by rewrite !run_log_missing.
Qed.

Lemma loop_log_calls (c : list byte) (offs : list Z) (e : event) :
  e ∈ loop_log c offs → e ≠ EvClose ∧ ∀ p, e ≠ EvOpen p.
Proof.
  induction offs as [|i rest IH]; cbn [loop_log].
  - intros []%elem_of_nil.
  - case_decide.
    + rewrite elem_of_app. intros [Hin|Hin]; [|by apply IH].
      unfold block_log in Hin. rewrite !elem_of_cons in Hin.
      destruct Hin as [->|[->|[->|[->|[]%elem_of_nil]]]]; done.
    + unfold short_log. rewrite !elem_of_cons.
      intros [->|[->|[]%elem_of_nil]]; done.
Qed.

Lemma elem_of_loop_log_read (c : list byte) (offs : list Z) (pos n : Z)
    (data : list byte) :
  EvRead pos n data ∈ loop_log c offs →
  pos ∈ offs ∧ n = 2 ∧ data = read_at c pos 2.
Proof.
  induction offs as [|i rest IH]; cbn [loop_log].
  - intros []%elem_of_nil.
  - case_decide.
    + rewrite elem_of_app. intros [Hin|Hin].
      * unfold block_log in Hin. rewrite !elem_of_cons in Hin.
        destruct Hin as [?|[Heq|[?|[?|[]%elem_of_nil]]]]; try discriminate.
        injection Heq as -> -> ->. split; [left|]; done.
      * destruct (IH Hin) as (? & ? & ?). split; [right|]; done.
    + unfold short_log. rewrite !elem_of_cons.
      intros [?|[Heq|[]%elem_of_nil]]; try discriminate.
      injection Heq as -> -> ->. split; [left|]; done.
Qed.

Lemma write_offsets_app (evs1 evs2 : list event) :
  write_offsets (evs1 ++ evs2) = write_offsets evs1 ++ write_offsets evs2.
Proof. apply omap_app. Qed.

Lemma write_offsets_blocks (c : list byte) (offs : list Z) :
  write_offsets (offs ≫= block_log c) = offs.
Proof.
  induction offs as [|i rest IH]; [reflexivity|].
  rewrite bind_cons, write_offsets_app, IH. reflexivity.
Qed.

Lemma NoDup_block_offsets (size : Z) : NoDup (block_offsets size).
Proof.
  rewrite block_offsets_eq. apply NoDup_fmap_2; [|apply NoDup_seqZ].
  intros x y Hxy. pose proof BLOCKSIZE_pos. nia.
Qed.

(** The number of offsets with two bytes left. *)
Lemma full_offsets_count (size : Z) :
  0 ≤ size →
  (if decide (size mod BLOCKSIZE = 1)
   then ceil_div (size - 1) BLOCKSIZE else ceil_div size BLOCKSIZE) =
  (size + BLOCKSIZE - 2) / BLOCKSIZE.
Proof.
  intros Hsize. pose proof BLOCKSIZE_ge_2 as HB. unfold ceil_div.
  pose proof (Z.div_mod size BLOCKSIZE ltac:(lia)) as Hdm.
  pose proof (Z.mod_pos_bound size BLOCKSIZE ltac:(lia)) as Hm.
  case_decide as Hmod.
  - assert ((size - 1) mod BLOCKSIZE = 0) as ->.
    { rewrite Zminus_mod, Hmod, one_mod_BLOCKSIZE. apply Z.mod_0_l. lia. }
    cbn [Z.eqb].
    assert ((size - 1) / BLOCKSIZE = size / BLOCKSIZE) as ->.
    { symmetry. apply (Z.div_unique _ _ _ 0); lia. }
    apply (Z.div_unique _ _ _ (BLOCKSIZE - 1)); lia.
  - destruct (Z.eqb_spec (size mod BLOCKSIZE) 0) as [H0|H0].
    + apply (Z.div_unique _ _ _ (BLOCKSIZE - 2)); lia.
    + apply (Z.div_unique _ _ _ (size mod BLOCKSIZE - 2)); lia.
Qed.

(** X1, permission denied: on a file that exists but cannot be opened for
    reading and writing, [rewrite_file] raises [PermissionError] after
    [getsize] has succeeded; no file object is opened, nothing is logged
    and the world is as it was. *)
Theorem permission_denied (σ : world) (path : string) (f : inode) :
  files σ !! path = Some f →
  ¬ openable f →
  rewrite_file path σ = (inl PermissionError, σ) ∧ run_log path σ = [].
Proof.
  intros Hpath Hperm. split.
  - apply (rewrite_file_denied σ path f Hpath). by apply not_true_is_false.
  - by apply (run_log_denied σ path f).
Qed.

Lemma permission_denied_witness :
  let f := Inode ["a"; "b"; "c"]%byte true false in
  let σ := disk "f" f in
  (files σ !! "f" = Some f ∧ ¬ openable f) ∧
  rewrite_file "f" σ = (inl PermissionError, σ) ∧ run_log "f" σ = [].
Proof.
  intros f σ.
  assert (files σ !! "f" = Some f) as H1 by reflexivity.
  assert (¬ openable f) as H2 by (intros H; discriminate H).
  split; [exact (conj H1 H2)|].
  exact (permission_denied σ "f" f H1 H2).
Defined.


(** X3, the file object is released: however the run ends, the table of
    open file objects is the one before the run, so nothing stays open and
    objects that were open keep their positions; and when the run opens
    the file, the log is one open, the calls of the loop, one close. *)
Theorem file_object_released (σ : world) (path : string) :
  objs (rewrite_file path σ).2 = objs σ ∧
  (run_log path σ = [] ∨
   ∃ evs, run_log path σ = [EvOpen path] ++ evs ++ [EvClose] ∧
          ∀ e, e ∈ evs → e ≠ EvClose ∧ ∀ p, e ≠ EvOpen p).
Proof.
  split; [apply files_rewrite_file|].
  destruct (files σ !! path) as [f|] eqn:Hpath;
    [|left; by apply run_log_missing].
  destruct (decide (openable f)) as [Hperm|Hperm];
    [|left; by apply (run_log_denied σ path f)].
  right. eexists. split; [by apply (run_log_run σ path f)|].
  apply loop_log_calls.
Qed.

(** X4, what is read: every read of a run asks for two bytes at a multiple
    of [BLOCKSIZE] inside the file and returns the one or two bytes the
    file has there; no other byte of a block is read. *)
Theorem reads_first_two_bytes (σ : world) (path : string) (pos n : Z)
    (data : list byte) :
  EvRead pos n data ∈ run_log path σ →
  ∃ f, files σ !! path = Some f ∧
       n = 2 ∧ 0 ≤ pos < size_of f ∧ pos mod BLOCKSIZE = 0 ∧
       data = read_at (i_data f) pos 2 ∧
       (1 ≤ length data ≤ 2)%nat.
Proof.
  intros Hin.
  destruct (files σ !! path) as [f|] eqn:Hpath;
    [|rewrite run_log_missing in Hin by done; by apply elem_of_nil in Hin].
  destruct (decide (openable f)) as [Hperm|Hperm];
    [|rewrite (run_log_denied σ path f) in Hin by done;
      by apply elem_of_nil in Hin].
  rewrite (run_log_run σ path f) in Hin by done.
  rewrite !elem_of_app, !elem_of_cons in Hin.
  destruct Hin as [[?|[]%elem_of_nil]|[Hin|[?|[]%elem_of_nil]]];
    try discriminate.
  apply elem_of_loop_log_read in Hin
    as ([Hpos Hmod]%elem_of_block_offsets & -> & ->).
  exists f. repeat split; try done; try lia.
  - rewrite length_read_at_2. unfold size_of in Hpos. lia.
  - rewrite length_read_at_2. lia.
Qed.

Lemma reads_first_two_bytes_witness :
  let σ := disk "f" (rw ["a"; "b"; "c"]%byte) in
  EvRead 0 2 ["a"; "b"]%byte ∈ run_log "f" σ ∧
  ∃ f, files σ !! "f" = Some f ∧
       2 = 2 ∧ 0 ≤ 0 < size_of f ∧ 0 mod BLOCKSIZE = 0 ∧
       ["a"; "b"]%byte = read_at (i_data f) 0 2 ∧
       (1 ≤ length ["a"; "b"]%byte ≤ 2)%nat.
Proof.
  intros σ.
  assert (EvRead 0 2 ["a"; "b"]%byte ∈ run_log "f" σ) as H1.
  { change (run_log "f" σ) with
      [EvOpen "f"; EvSeek 0; EvRead 0 2 ["a"; "b"]%byte;
       EvSeek 0; EvWrite 0 ["a"; "b"]%byte; EvClose].
    rewrite !elem_of_cons. auto. }
  split; [exact H1|].
  exact (reads_first_two_bytes σ "f" 0 2 ["a"; "b"]%byte H1).
Defined.

(** X5, what is written: on an openable file each offset with two bytes
    left is written once, in ascending order.  These are all the offsets
    read, unless the size is 1 modulo [BLOCKSIZE], when the last offset
    read is left unwritten.  The number of writes is
    [(size + BLOCKSIZE - 2) / BLOCKSIZE]. *)
Theorem write_sequence (σ : world) (path : string) (f : inode) :
  files σ !! path = Some f →
  openable f →
  let writes := write_offsets (run_log path σ) in
  let reads := read_offsets (run_log path σ) in
  (size_of f mod BLOCKSIZE ≠ 1 → writes = reads) ∧
  (size_of f mod BLOCKSIZE = 1 → reads = writes ++ [size_of f - 1]) ∧
  StronglySorted Z.lt writes ∧ NoDup writes ∧
  Z.of_nat (length writes) = (size_of f + BLOCKSIZE - 2) / BLOCKSIZE.
Proof.
  intros Hpath Hperm writes reads.
  pose proof (size_of_nonneg f) as Hsize.
  pose proof (full_offsets_count (size_of f) Hsize) as Hcount.
  assert (reads = block_offsets (size_of f)) as Hreads
    by (by apply read_offsets_run).
  destruct (decide (size_of f mod BLOCKSIZE = 1)) as [Hmod|Hmod].
  - destruct (run_log_short σ path f Hpath Hperm Hmod)
      as (Hlast & _ & _ & Hlog).
    assert (writes = block_offsets (size_of f - 1)) as Hwrites.
    { unfold writes. rewrite Hlog, !write_offsets_app, write_offsets_blocks.
      unfold short_log. cbn [write_offsets omap app]. by rewrite app_nil_r. }
    rewrite Hwrites, Hreads.
    split; [done|]. split; [done|].
    split; [apply block_offsets_ascending|].
    split; [apply NoDup_block_offsets|].
    rewrite length_block_offsets by (pose proof (size_of_mod_1_pos f Hmod); lia).
    exact Hcount.
  - assert (writes = block_offsets (size_of f)) as Hwrites.
    { unfold writes. rewrite (run_log_run σ path f) by done.
      destruct (loop_full (i_data f) _ (block_offsets_full _ Hmod)) as [_ ->].
      rewrite !write_offsets_app, write_offsets_blocks.
      cbn [write_offsets omap app]. by rewrite app_nil_r. }
    rewrite Hwrites, Hreads.
    split; [done|]. split; [done|].
    split; [apply block_offsets_ascending|].
    split; [apply NoDup_block_offsets|].
    rewrite length_block_offsets by done. exact Hcount.
Qed.

Lemma write_sequence_witness :
  let f := zeros (BLOCKSIZE + 1) in
  let σ := disk "f" f in
  (files σ !! "f" = Some f ∧ openable f) ∧
  (size_of f mod BLOCKSIZE ≠ 1 →
     write_offsets (run_log "f" σ) = read_offsets (run_log "f" σ)) ∧
  (size_of f mod BLOCKSIZE = 1 →
     read_offsets (run_log "f" σ) =
       write_offsets (run_log "f" σ) ++ [size_of f - 1]) ∧
  StronglySorted Z.lt (write_offsets (run_log "f" σ)) ∧
  NoDup (write_offsets (run_log "f" σ)) ∧
  Z.of_nat (length (write_offsets (run_log "f" σ))) =
    (size_of f + BLOCKSIZE - 2) / BLOCKSIZE.
Proof.
  intros f σ.
  assert (files σ !! "f" = Some f) as H1 by reflexivity.
  assert (openable f) as H2 by reflexivity.
  split; [exact (conj H1 H2)|].
  exact (write_sequence σ "f" f H1 H2).
Defined.

(** X6, only the target file matters: two worlds that hold the same file
    at the path give the same result and the same calls, whatever other
    files they hold, whatever objects are open and whatever was logged. *)
Theorem depends_on_target_only (σ1 σ2 : world) (path : string) :
  files σ1 !! path = files σ2 !! path →
  (rewrite_file path σ1).1 = (rewrite_file path σ2).1 ∧
  run_log path σ1 = run_log path σ2.
Proof. apply rewrite_file_agree. Qed.

Lemma depends_on_target_only_witness :
  let f := rw ["a"; "b"; "c"]%byte in
  let σ1 := disk "f" f in
  let σ2 := World {[ "f" := f; "g" := rw ["x"]%byte ]}
                  {[ 0%nat := FileObject "g" 7 ]} [EvSeek 1] in
  files σ1 !! "f" = files σ2 !! "f" ∧
  (rewrite_file "f" σ1).1 = (rewrite_file "f" σ2).1 ∧
  run_log "f" σ1 = run_log "f" σ2.
Proof.
  intros f σ1 σ2.
  assert (files σ1 !! "f" = files σ2 !! "f") as H1 by reflexivity.
  split; [exact H1|].
  exact (depends_on_target_only σ1 σ2 "f" H1).
Defined.

(** X7, runs do not interfere: a run on [p2] that follows a run on [p1]
    (the same path or another) ends as it would have without the first
    run and makes the same calls, and after both runs the files and the
    open objects are those of the start. *)
Theorem runs_do_not_interfere (σ : world) (p1 p2 : string) :
  let σ1 := (rewrite_file p1 σ).2 in
  (rewrite_file p2 σ1).1 = (rewrite_file p2 σ).1 ∧
  run_log p2 σ1 = run_log p2 σ ∧
  files (rewrite_file p2 σ1).2 = files σ ∧
  objs (rewrite_file p2 σ1).2 = objs σ.
Proof.
  intros σ1.
  destruct (files_rewrite_file σ p1) as [Hfiles Hobjs].
  destruct (files_rewrite_file σ1 p2) as [Hfiles' Hobjs'].
  destruct (rewrite_file_agree σ1 σ p2) as [Hres Hlog];
    [unfold σ1; by rewrite Hfiles|].
  repeat split; [done | done | |].
  - rewrite Hfiles'. exact Hfiles.
  - rewrite Hobjs'. exact Hobjs.
Qed.

(** X8, [main]: it raises [IndexError], touching nothing, exactly when no
    path follows the program name; otherwise it is the run on the first
    argument, whatever arguments follow.  In every case the files and the
    open objects are left as they were. *)
Theorem main_behaviour (argv : list string) (σ : world) :
  ((main argv σ).1 = inl IndexError ↔ (length argv ≤ 1)%nat) ∧
  ((length argv ≤ 1)%nat → main argv σ = (inl IndexError, σ)) ∧
  (∀ path, argv !! 1%nat = Some path → main argv σ = rewrite_file path σ) ∧
  files (main argv σ).2 = files σ ∧
  objs (main argv σ).2 = objs σ.
Proof.
  unfold main. destruct (argv !! 1%nat) as [path|] eqn:Harg.
  - apply lookup_lt_Some in Harg as Hlen.
    destruct (files_rewrite_file σ path) as [Hfiles Hobjs].
    pose proof (rewrite_file_result σ path) as Hres.
    repeat split; try done; try lia.
    + intros Hidx. rewrite Hidx in Hres.
      destruct (files σ !! path) as [f|]; [|discriminate].
      destruct (i_readable f && i_writable f); [case_decide|]; discriminate.
    + by intros path' [= <-].
  - apply lookup_ge_None in Harg as Hlen.
    repeat split; try done; lia.
Qed.


